(** * FireMetaBallSystem: budget-constrained clustering and visual reconciliation

    A shallow embedding of [FireMetaBallParticle] and [FireMetaBallSystem]
    (components/FireMetaBallSystem.ts) together with the properties of the
    clustering layer, of the per-frame reconciliation and of the sprite
    budget.

    Conventions of the embedding.
    - A JavaScript [number] is a value of an abstract type [num] carrying the
      operations the program uses (class [Num]); nothing is assumed about
      them, so every statement proved for an arbitrary [Num] holds whatever
      the rounding behaviour of the arithmetic is.  Exact rationals [Q] are
      one instance, used for numeric facts and for concrete runs.
    - A particle object is identified with its [id]: the constructor is the
      only producer of particles and draws ids from a counter.  Mutable
      particle objects live in a store ([heap]) indexed by id; arrays and
      groups hold references (ids).
    - [Math.random()] reads the next element of a stream [rnd : nat -> num];
      the position in the stream is part of the state. *)

From Stdlib Require Import QArith Qround Qminmax Qabs Lqa.
From Stdlib Require Import Relations.
From stdpp Require Import gmap list functions pretty strings sorting.

Set Default Proof Using "Type*".

(** ** Numbers *)

Class Num (num : Type) := {
  nadd : num -> num -> num;
  nsub : num -> num -> num;
  nmul : num -> num -> num;
  ndiv : num -> num -> num;
  nrem : num -> num -> num;          (* the [%] operator *)
  nlt : num -> num -> bool;          (* [<] *)
  nle : num -> num -> bool;          (* [<=] *)
  nmax : num -> num -> num;          (* [Math.max] *)
  nmin : num -> num -> num;          (* [Math.min] *)
  nabs : num -> num;                 (* [Math.abs] *)
  nfloor : num -> Z;                 (* [Math.floor], an integer *)
  nofZ : Z -> num;                   (* an integer used as a number *)
  lit : Q -> num;                    (* a decimal literal *)
  above_neg_infinity : num -> bool   (* [v > -Infinity] *)
}.

Class MathLib (num : Type) := {
  Math_cos : num -> num;
  Math_sin : num -> num;
  Math_sqrt : num -> num;
  Math_atan2 : num -> num -> num;
  Math_PI : num
}.

Arguments lit {num _} _%_Q.

Declare Scope num_scope.
Delimit Scope num_scope with num.
Infix "+" := nadd : num_scope.
Infix "-" := nsub : num_scope.
Infix "*" := nmul : num_scope.
Infix "/" := ndiv : num_scope.
Notation "a <? b" := (nlt a b) : num_scope.
Notation "a <=? b" := (nle a b) : num_scope.
Notation "a >? b" := (nlt b a) : num_scope.
Notation "a >=? b" := (nle b a) : num_scope.

(** Truncation toward zero, for the remainder operator on rationals. *)
Definition Qtrunc (q : Q) : Z :=
  if Qle_bool 0 q then Qfloor q else Qceiling q.

Definition Qrem (a b : Q) : Q := (a - b * inject_Z (Qtrunc (a / b)))%Q.

#[export] Instance Q_Num : Num Q := {|
  nadd := Qplus;
  nsub := Qminus;
  nmul := Qmult;
  ndiv := Qdiv;
  nrem := Qrem;
  nlt := fun a b => negb (Qle_bool b a);
  nle := Qle_bool;
  nmax := Qmax;
  nmin := Qmin;
  nabs := Qabs;
  nfloor := Qfloor;
  nofZ := inject_Z;
  lit := fun q => q;
  above_neg_infinity := fun _ => true
|}.

(** ** Random draws *)

Definition Rand (num A : Type) : Type := (nat -> num) -> nat -> A * nat.

Definition rret {num A} (a : A) : Rand num A := fun _ n => (a, n).
Definition rbind {num A B} (c : Rand num A) (k : A -> Rand num B) : Rand num B :=
  fun rnd n => let r := c rnd n in k r.1 rnd r.2.
Definition Math_random {num} : Rand num num := fun rnd n => (rnd n, S n).

Notation "'let*' x := c 'in' k" := (rbind c (fun x => k))
  (at level 200, x name, c at level 100, k at level 200, only parsing).

(** ** Particles *)

Record Particle (num : Type) := mkParticle {
  pid : nat;
  px : num;
  py : num;
  pvx : num;
  pvy : num;
  life : num;
  maxLife : num;
  active : bool;
  merged : bool
}.
Arguments mkParticle {num}.
Arguments pid {num}.
Arguments px {num}.
Arguments py {num}.
Arguments pvx {num}.
Arguments pvy {num}.
Arguments life {num}.
Arguments maxLife {num}.
Arguments active {num}.
Arguments merged {num}.

Section ParticleOps.
Context {num : Type} `{Num num}.
Local Open Scope num_scope.

Definition set_merged (b : bool) (p : Particle num) : Particle num :=
  mkParticle (pid p) (px p) (py p) (pvx p) (pvy p) (life p) (maxLife p)
             (active p) b.

(** [FireMetaBallParticle.update]; an inactive particle returns before
    drawing. *)
Definition particle_update (dt : num) (p : Particle num) : Rand num (Particle num) :=
  if negb (active p) then rret p else
  let x1 := px p + pvx p * dt in
  let y1 := py p + pvy p * dt in
  let vy1 := pvy p - lit 20 * dt in
  let* r1 := Math_random in
  let vx2 := pvx p + (r1 - lit 0.5) * lit 10 * dt in
  let* r2 := Math_random in
  let vy2 := vy1 + (r2 - lit 0.5) * lit 5 * dt in
  let vx3 := vx2 * lit 0.995 in
  let vy3 := vy2 * lit 0.995 in
  let life1 := life p - dt in
  rret (mkParticle (pid p) x1 y1 vx3 vy3 life1 (maxLife p)
                   (if life1 <=? lit 0 then false else true) (merged p)).

(** [FireMetaBallParticle.getAlpha] *)
Definition getAlpha (p : Particle num) : num :=
  if negb (active p) then lit 0 else
  let a := life p * lit 2 in
  if a <? lit 1 then a else lit 1.

(** The formula of the sibling [SimulationParticle.getAlpha]
    (scripts/flameSimulation.js), which the specification quotes:
    [Math.min(1, lifeRatio * 2)] with [lifeRatio = life / maxLife]. *)
Definition getAlpha_by_ratio (p : Particle num) : num :=
  if negb (active p) then lit 0 else
  let lifeRatio := life p / maxLife p in
  nmin (lit 1) (lifeRatio * lit 2).
End ParticleOps.

(** ** Clustering *)

Record Flood (num : Type) := mkFlood {
  visited : gset nat;
  comp : list (Particle num);
  sumX : num;
  sumY : num;
  count : Z;
  cx : num;
  cy : num;
  stack : list (Particle num)       (* top of the stack first *)
}.
Arguments mkFlood {num}.
Arguments visited {num}.
Arguments comp {num}.
Arguments sumX {num}.
Arguments sumY {num}.
Arguments count {num}.
Arguments cx {num}.
Arguments cy {num}.
Arguments stack {num}.

Section Clustering.
Context {num : Type} `{Num num}.
Variable emitterHeight : num.
Local Open Scope num_scope.

(** [scaleAtY] *)
Definition scaleAtY (y : num) : num :=
  let t := nmax (lit 0) (nmin (lit 1) (y / emitterHeight)) in
  lit 0.12 + t * lit 2.

Section AtThreshold.
Variable threshold : num.

(** [keyOf]: the key string [`${cx},${cy}`] is kept as the pair of the
    two integers it prints. *)
Definition keyOf (x y : num) : Z * Z :=
  (nfloor (x / threshold), nfloor (y / threshold)).

Definition bucket_add (b : gmap (Z * Z) (list (Particle num)))
    (p : Particle num) : gmap (Z * Z) (list (Particle num)) :=
  let k := keyOf (px p) (py p) in
  match b !! k with
  | None => <[k := [p]]> b
  | Some l => <[k := l ++ [p]]> b
  end.

Definition make_buckets (particles : list (Particle num))
    : gmap (Z * Z) (list (Particle num)) :=
  fold_left bucket_add particles ∅.

Definition offsets : list Z := [-1; 0; 1]%Z.

(** [candidates]: the 3x3 block of cells around the cell of [(x, y)],
    rows [oy] outermost. *)
Definition candidates (buckets : gmap (Z * Z) (list (Particle num)))
    (x y : num) : list (Particle num) :=
  let c := keyOf x y in
  flat_map (fun oy =>
    flat_map (fun ox =>
      match buckets !! ((c.1 + ox)%Z, (c.2 + oy)%Z) with
      | Some l => l
      | None => []
      end) offsets) offsets.

(** The two admission tests of the inner loop. *)
Definition pairwise_ok (cur nb : Particle num) : bool :=
  let dx := px cur - px nb in
  let dy := py cur - py nb in
  let d2 := dx * dx + dy * dy in
  let pairScale := nmax (scaleAtY (py cur)) (scaleAtY (py nb)) in
  let pairThr := threshold * pairScale in
  let pairThr2 := pairThr * pairThr in
  negb (d2 >? pairThr2).

Definition COHESION : num := lit 1.0.

Definition cohesion_ok (ccx ccy : num) (nb : Particle num) : bool :=
  let cxScale := scaleAtY ccy in
  let bottomBias := lit 1 + (ccy / emitterHeight) * lit 0.8 in
  let cohThr := threshold * COHESION * cxScale * bottomBias in
  let dcx := px nb - ccx in
  let dcy := py nb - ccy in
  negb (dcx * dcx + dcy * dcy >? cohThr * cohThr).

(** One iteration of [for (const nb of candidates(cur.x, cur.y))]. *)
Definition visit (cur : Particle num) (st : Flood num) (nb : Particle num)
    : Flood num :=
  if bool_decide (pid nb ∈ visited st) || Nat.eqb (pid nb) (pid cur) then st
  else if negb (pairwise_ok cur nb) then st
  else if negb (cohesion_ok (cx st) (cy st) nb) then st
  else
    let sumX' := sumX st + px nb in
    let sumY' := sumY st + py nb in
    let count' := (count st + 1)%Z in
    mkFlood ({[pid nb]} ∪ visited st) (comp st ++ [nb])
            sumX' sumY' count'
            (sumX' / nofZ count') (sumY' / nofZ count')
            (nb :: stack st).

Definition pop_to (st : Flood num) (rest : list (Particle num)) : Flood num :=
  mkFlood (visited st) (comp st) (sumX st) (sumY st) (count st)
          (cx st) (cy st) rest.

(** [while (stack.length > 0)]: [fuel] bounds the number of iterations. *)
Fixpoint flood (buckets : gmap (Z * Z) (list (Particle num)))
    (fuel : nat) (st : Flood num) : Flood num :=
  match fuel with
  | O => st
  | S fuel' =>
    match stack st with
    | [] => st
    | cur :: rest =>
      flood buckets fuel'
        (fold_left (visit cur) (candidates buckets (px cur) (py cur))
                   (pop_to st rest))
    end
  end.

Definition seed_state (vis : gset nat) (seed : Particle num) : Flood num :=
  mkFlood ({[pid seed]} ∪ vis) [seed] (px seed) (py seed) 1%Z
          (px seed) (py seed) [seed].

(** One iteration of [for (const seed of particles)]. *)
Definition grow (buckets : gmap (Z * Z) (list (Particle num))) (fuel : nat)
    (acc : gset nat * list (list (Particle num))) (seed : Particle num)
    : gset nat * list (list (Particle num)) :=
  if bool_decide (pid seed ∈ acc.1) then acc
  else
    let st := flood buckets fuel (seed_state acc.1 seed) in
    (visited st, acc.2 ++ [comp st]).

(** [clusterParticles].  Every iteration of the [while] loop pops one
    particle and a particle is pushed at most once, so [length particles]
    iterations are enough ([flood_exhausts_stack] below). *)
Definition clusterParticles (particles : list (Particle num))
    : list (list (Particle num)) :=
  let buckets := make_buckets particles in
  (fold_left (grow buckets (length particles)) particles (∅, [])).2.
End AtThreshold.

(** *** The admitted-neighbour graph of a cluster

    A cluster lists its members in admission order, seed first.  The
    running sums and the running centroid the inner loop maintains are
    functions of the members admitted so far. *)
Definition sum_step (s : num * num * Z) (nb : Particle num) : num * num * Z :=
  (s.1.1 + px nb, s.1.2 + py nb, (s.2 + 1)%Z).

Definition sums (c : list (Particle num)) : num * num * Z :=
  match c with
  | [] => (lit 0, lit 0, 0%Z)
  | seed :: rest => fold_left sum_step rest (px seed, py seed, 1%Z)
  end.

Definition centroid (c : list (Particle num)) : num * num :=
  match c with
  | [] => (lit 0, lit 0)
  | [seed] => (px seed, py seed)
  | _ => let s := sums c in (s.1.1 / nofZ s.2, s.1.2 / nofZ s.2)
  end.

(** [admitted threshold particles c cur nb]: [nb] was admitted into the
    cluster [c] while [cur] was being expanded: [cur] joined earlier, [nb]
    lies in the 3x3 block of [cur] and passed the pairwise test against
    [cur] and the cohesion test against the centroid of the members
    admitted before it.  [admitted_at] names the position of [nb]. *)
Definition admitted_at (threshold : num) (particles c : list (Particle num))
    (k : nat) (cur nb : Particle num) : Prop :=
  c !! k = Some nb /\ cur ∈ take k c /\
  nb ∈ candidates threshold (make_buckets threshold particles) (px cur) (py cur) /\
  pairwise_ok threshold cur nb = true /\
  cohesion_ok threshold (centroid (take k c)).1 (centroid (take k c)).2 nb = true.

Definition admitted (threshold : num) (particles c : list (Particle num))
    (cur nb : Particle num) : Prop :=
  exists k, admitted_at threshold particles c k cur nb.

(** Reachability in the (undirected) admitted-neighbour graph. *)
Definition linked (threshold : num) (particles c : list (Particle num))
    : relation (Particle num) :=
  clos_refl_sym_trans _ (admitted threshold particles c).

(** [clusterToFitBudget] *)
Definition multipliers : list Q := [1; 1.12; 1.4; 1.8; 2; 2.2]%Q.

Fixpoint try_multipliers (baseMergeDistance : num) (maxSprites : Z)
    (actives : list (Particle num)) (ms : list Q)
    (chosen : list (list (Particle num))) : list (list (Particle num)) :=
  match ms with
  | [] => chosen
  | m :: ms' =>
    let clusters := clusterParticles (baseMergeDistance * lit m) actives in
    if (Z.of_nat (length clusters) <=? maxSprites)%Z then clusters
    else try_multipliers baseMergeDistance maxSprites actives ms' clusters
  end.

Definition clusterToFitBudget (baseMergeDistance : num) (maxSprites : Z)
    (particles : list (Particle num)) : list (list (Particle num)) :=
  let actives := filter (fun p => active p = true) particles in
  if Nat.eqb (length actives) 0 then []
  else try_multipliers baseMergeDistance maxSprites actives multipliers [].
End Clustering.

(** ** Sprites, groups and the system state *)

(** A sprite object.  [handle] is the identity of the object; whether the
    sprite has a parent is read off the child list of the container.
    [AssetLoader.getTexture] is outside the modelled sources: a sprite
    records the name it was asked for. *)
Record Sprite (num : Type) := mkSprite {
  handle : nat;
  texture : string;
  anchorXY : num;
  sx : num;
  sy : num;
  rotation : num;
  alpha : num;
  blendMode : Z;
  scaleX : num;
  scaleY : num;
  visible : bool
}.
Arguments mkSprite {num}.
Arguments handle {num}.
Arguments texture {num}.
Arguments anchorXY {num}.
Arguments sx {num}.
Arguments sy {num}.
Arguments rotation {num}.
Arguments alpha {num}.
Arguments blendMode {num}.
Arguments scaleX {num}.
Arguments scaleY {num}.
Arguments visible {num}.

(** [ParticleGroup]; particles are held by reference. *)
Record ParticleGroup (num : Type) := mkGroup {
  gkey : list nat;
  gparticles : list nat;
  gsprite : Sprite num;
  ganchor : nat
}.
Arguments mkGroup {num}.
Arguments gkey {num}.
Arguments gparticles {num}.
Arguments gsprite {num}.
Arguments ganchor {num}.

Record FireMetaBallOptions (num : Type) := mkOptions {
  opt_max : Z;
  opt_width : num;
  opt_height : num;
  opt_mergeDistance : option num;
  opt_spawnInterval : option num
}.
Arguments mkOptions {num}.
Arguments opt_max {num}.
Arguments opt_width {num}.
Arguments opt_height {num}.
Arguments opt_mergeDistance {num}.
Arguments opt_spawnInterval {num}.

(** [FireMetaBallSystem], with the part of the surroundings it acts on:
    the particle store and the static id counter, the child list of the
    container, the sprite allocator and the position in the random stream. *)
Record System (num : Type) := mkSystem {
  maxSprites : Z;
  emitterWidth : num;
  emitterHeight : num;
  baseMergeDistance : num;
  spawnTimer : num;
  spawnInterval : num;
  particles : list nat;
  singleSprites : gmap nat (Sprite num);
  groups : gmap (list nat) (ParticleGroup num);
  heap : nat -> Particle num;
  nextId : nat;
  children : list nat;
  nextHandle : nat;
  rng : nat
}.
Arguments mkSystem {num}.
Arguments maxSprites {num}.
Arguments emitterWidth {num}.
Arguments emitterHeight {num}.
Arguments baseMergeDistance {num}.
Arguments spawnTimer {num}.
Arguments spawnInterval {num}.
Arguments particles {num}.
Arguments singleSprites {num}.
Arguments groups {num}.
Arguments heap {num}.
Arguments nextId {num}.
Arguments children {num}.
Arguments nextHandle {num}.
Arguments rng {num}.

Section Setters.
Context {num : Type}.
Implicit Types (st : System num) (s : Sprite num) (g : ParticleGroup num).

Definition with_spawnTimer (v : num) st : System num :=
  mkSystem (maxSprites st) (emitterWidth st) (emitterHeight st) (baseMergeDistance st)
    v (spawnInterval st) (particles st) (singleSprites st) (groups st)
    (heap st) (nextId st) (children st) (nextHandle st) (rng st).
Definition with_spawnInterval (v : num) st : System num :=
  mkSystem (maxSprites st) (emitterWidth st) (emitterHeight st) (baseMergeDistance st)
    (spawnTimer st) v (particles st) (singleSprites st) (groups st)
    (heap st) (nextId st) (children st) (nextHandle st) (rng st).
Definition with_particles (v : list nat) st : System num :=
  mkSystem (maxSprites st) (emitterWidth st) (emitterHeight st) (baseMergeDistance st)
    (spawnTimer st) (spawnInterval st) v (singleSprites st) (groups st)
    (heap st) (nextId st) (children st) (nextHandle st) (rng st).
Definition with_singleSprites (v : gmap nat (Sprite num)) st : System num :=
  mkSystem (maxSprites st) (emitterWidth st) (emitterHeight st) (baseMergeDistance st)
    (spawnTimer st) (spawnInterval st) (particles st) v (groups st)
    (heap st) (nextId st) (children st) (nextHandle st) (rng st).
Definition with_groups (v : gmap (list nat) (ParticleGroup num)) st : System num :=
  mkSystem (maxSprites st) (emitterWidth st) (emitterHeight st) (baseMergeDistance st)
    (spawnTimer st) (spawnInterval st) (particles st) (singleSprites st) v
    (heap st) (nextId st) (children st) (nextHandle st) (rng st).
Definition with_heap (v : nat -> Particle num) st : System num :=
  mkSystem (maxSprites st) (emitterWidth st) (emitterHeight st) (baseMergeDistance st)
    (spawnTimer st) (spawnInterval st) (particles st) (singleSprites st) (groups st)
    v (nextId st) (children st) (nextHandle st) (rng st).
Definition with_nextId (v : nat) st : System num :=
  mkSystem (maxSprites st) (emitterWidth st) (emitterHeight st) (baseMergeDistance st)
    (spawnTimer st) (spawnInterval st) (particles st) (singleSprites st) (groups st)
    (heap st) v (children st) (nextHandle st) (rng st).
Definition with_children (v : list nat) st : System num :=
  mkSystem (maxSprites st) (emitterWidth st) (emitterHeight st) (baseMergeDistance st)
    (spawnTimer st) (spawnInterval st) (particles st) (singleSprites st) (groups st)
    (heap st) (nextId st) v (nextHandle st) (rng st).
Definition with_nextHandle (v : nat) st : System num :=
  mkSystem (maxSprites st) (emitterWidth st) (emitterHeight st) (baseMergeDistance st)
    (spawnTimer st) (spawnInterval st) (particles st) (singleSprites st) (groups st)
    (heap st) (nextId st) (children st) v (rng st).
Definition with_rng (v : nat) st : System num :=
  mkSystem (maxSprites st) (emitterWidth st) (emitterHeight st) (baseMergeDistance st)
    (spawnTimer st) (spawnInterval st) (particles st) (singleSprites st) (groups st)
    (heap st) (nextId st) (children st) (nextHandle st) v.

Definition set_visible (b : bool) s : Sprite num :=
  mkSprite (handle s) (texture s) (anchorXY s) (sx s) (sy s) (rotation s)
           (alpha s) (blendMode s) (scaleX s) (scaleY s) b.
Definition set_anchorXY (v : num) s : Sprite num :=
  mkSprite (handle s) (texture s) v (sx s) (sy s) (rotation s)
           (alpha s) (blendMode s) (scaleX s) (scaleY s) (visible s).
Definition set_position (x y : num) s : Sprite num :=
  mkSprite (handle s) (texture s) (anchorXY s) x y (rotation s)
           (alpha s) (blendMode s) (scaleX s) (scaleY s) (visible s).
Definition set_rotation (v : num) s : Sprite num :=
  mkSprite (handle s) (texture s) (anchorXY s) (sx s) (sy s) v
           (alpha s) (blendMode s) (scaleX s) (scaleY s) (visible s).
(** The per-frame writes: position, alpha, blend mode and scale. *)
Definition set_frame (x y a : num) (bm : Z) (scx scy : num) s : Sprite num :=
  mkSprite (handle s) (texture s) (anchorXY s) x y (rotation s)
           a bm scx scy (visible s).

Definition set_members (ps : list nat) (anchor : nat) g : ParticleGroup num :=
  mkGroup (gkey g) ps (gsprite g) anchor.
Definition set_ganchor (anchor : nat) g : ParticleGroup num :=
  mkGroup (gkey g) (gparticles g) (gsprite g) anchor.
Definition set_gsprite (s : Sprite num) g : ParticleGroup num :=
  mkGroup (gkey g) (gparticles g) s (ganchor g).

(** Container operations on the child list. *)
Definition removeChild (h : nat) (ch : list nat) : list nat :=
  filter (fun h' => h' <> h) ch.
Definition addChild (h : nat) (ch : list nat) : list nat :=
  removeChild h ch ++ [h].
Definition has_parent s st : bool := bool_decide (handle s ∈ children st).

Definition deref st (refs : list nat) : list (Particle num) :=
  map (heap st) refs.
End Setters.

(** ** Texture selection *)

Section Textures.
Context {num : Type} `{Num num} `{MathLib num}.
Local Open Scope num_scope.

(** [configs[i]] for an integer [i]; outside the array the template
    literal prints [undefined]. *)
Definition index (l : list string) (i : Z) : string :=
  if (i <? 0)%Z then "undefined" else nth (Z.to_nat i) l "undefined".

(** [configs[Math.floor(Math.random() * configs.length)]] *)
Definition pick (l : list string) : Rand num string :=
  let* r := Math_random in
  rret (index l (nfloor (r * nofZ (Z.of_nat (length l))))).

(** [1 + Math.floor(Math.random() * n)] *)
Definition variation_of (n : Z) : Rand num Z :=
  let* r := Math_random in
  rret (1 + nfloor (r * nofZ n)%num)%Z.

Definition sizes : list string := ["xs"; "s"; "m"; "l"; "xl"; "xxl"].

(** [pickSingle]; [spawnOne] spells out the same three lines. *)
Definition pickSingle : Rand num string :=
  let* size := pick sizes in
  let* variation := variation_of 6 in
  rret ("single_" +:+ size +:+ "_" +:+ pretty variation).

Definition merge_name (configType : string) (variation : Z) : string :=
  "merge_" +:+ configType +:+ "_" +:+ pretty variation.

Definition configs3 : list string :=
  ["tri3_eq"; "tri3_iso"; "tri3_right"; "tri3_acute"; "lin3_h_close";
   "lin3_h_far"; "lin3_v_close"; "lin3_v_far"; "lin3_diag"; "lin3_antidiag";
   "l3_ne"; "l3_nw"; "l3_se"; "l3_sw"; "arc3_top"; "arc3_bottom";
   "arc3_left"; "arc3_right"; "v3_up"; "v3_down"; "v3_left"; "v3_right"].
Definition configs4 : list string :=
  ["cross4"; "plus4"; "cross4_diag"; "square4"; "rect4_h"; "rect4_v";
   "diamond4"; "line4_h"; "line4_v"; "line4_diag"; "t4_up"; "t4_down";
   "t4_left"; "t4_right"].
Definition configs5 : list string := ["cluster5"; "star5"; "x5"].
Definition configs6 : list string := ["hex6"; "flower6"; "grid6"].
Definition configs7 : list string := ["circle7"; "burst8"].
Definition scatterConfigs : list string :=
  ["scatter3"; "scatter4"; "scatter5"; "scatter6"; "scatter7"; "scatter8";
   "scatter9"; "scatter10"].
Definition asymConfigs : list string :=
  ["tear_up"; "tear_down"; "tear_left"; "tear_right"; "comet_ne"; "comet_nw";
   "comet_se"; "comet_sw"; "flame_tall"; "flame_wide"; "flame_left";
   "flame_right"; "wave_h"; "wave_v"; "wave_s"].

Definition by_distance (distance : num) (close mid far : string) : string :=
  if distance <? lit 15 then close
  else if distance <? lit 30 then mid
  else far.

Definition coin (threshold : num) (yes no : string) : Rand num string :=
  let* r := Math_random in
  rret (if r <? threshold then yes else no).

(** The [count === 2] branch of [pickMergeTexture]. *)
Definition pair_config (p1 p2 : Particle num) : Rand num string :=
  let dx := nabs (px p1 - px p2) in
  let dy := nabs (py p1 - py p2) in
  let distance := Math_sqrt (dx * dx + dy * dy) in
  if dx >? dy * lit 1.8 then
    rret (by_distance distance "h2_close" "h2_mid" "h2_far")
  else if dy >? dx * lit 1.8 then
    rret (by_distance distance "v2_close" "v2_mid" "v2_far")
  else
    let angle := (Math_atan2 (py p2 - py p1) (px p2 - px p1) * lit 180) / Math_PI in
    let normalizedAngle := nrem (angle + lit 360) (lit 360) in
    let* configType :=
      (if (normalizedAngle >=? lit 315) || (normalizedAngle <? lit 45) then
         coin (lit 0.7) "a2_30" "a2_150"
       else if (normalizedAngle >=? lit 45) && (normalizedAngle <? lit 135) then
         coin (lit 0.5) "d2_ne" "d2_se"
       else if (normalizedAngle >=? lit 135) && (normalizedAngle <? lit 225) then
         coin (lit 0.7) "a2_60" "a2_120"
       else
         coin (lit 0.5) "d2_nw" "d2_sw") in
    if distance <? lit 8 then coin (lit 0.6) "o2_heavy" "o2_slight"
    else if distance <? lit 12 then coin (lit 0.3) "o2_slight" configType
    else rret configType.

Definition from_table (configs : list string) : Rand num string :=
  let* configType := pick configs in
  let* variation := variation_of 4 in
  rret (merge_name configType variation).

(** [pickMergeTexture] *)
Definition pickMergeTexture (particles : list (Particle num)) : Rand num string :=
  match particles with
  | [p1; p2] =>
    let* configType := pair_config p1 p2 in
    let* variation := variation_of 4 in
    rret (merge_name configType variation)
  | [_; _; _] => from_table configs3
  | [_; _; _; _] => from_table configs4
  | [_; _; _; _; _] => from_table configs5
  | [_; _; _; _; _; _] => from_table configs6
  | _ :: _ :: _ :: _ :: _ :: _ :: _ :: _ => from_table configs7
  | _ =>
    let* r := Math_random in
    if r <? lit 0.3 then
      let* configType := pick scatterConfigs in
      let* variation := variation_of 5 in
      rret (configType +:+ "_" +:+ pretty variation)
    else
      let* r := Math_random in
      if r <? lit 0.2 then
        let* configType := pick asymConfigs in
        let* variation := variation_of 3 in
        rret ("asym_" +:+ configType +:+ "_" +:+ pretty variation)
      else pickSingle
  end.
End Textures.

(** ** The system *)

Section SystemOps.
Context {num : Type} `{Num num} `{MathLib num}.
Variable rnd : nat -> num.
Local Open Scope num_scope.
Implicit Types (st : System num) (p : Particle num) (g : ParticleGroup num).

(** Run a drawing computation at the system's position in the stream. *)
Definition draw {A : Type} (c : Rand num A) st : A * System num :=
  let r := c rnd (rng st) in (r.1, with_rng r.2 st).

Definition no_particle : Particle num :=
  mkParticle 0 (lit 0) (lit 0) (lit 0) (lit 0) (lit 0) (lit 0) false false.

(** The constructor of [FireMetaBallSystem].  [id0] is the value of the
    static counter [FireMetaBallParticle.nextId] at that time. *)
Definition FireMetaBallSystem_new (opts : FireMetaBallOptions num) (id0 : nat)
    : System num :=
  mkSystem (opt_max opts) (opt_width opts) (opt_height opts)
    (default (lit 5) (opt_mergeDistance opts))
    (lit 0)
    (default (lit 0.15) (opt_spawnInterval opts))
    [] ∅ ∅ (fun _ => no_particle) id0 [] 0 0.

(** The constructor of [FireMetaBallParticle]. *)
Definition new_particle (id : nat) (x y : num) : Rand num (Particle num) :=
  let* r := Math_random in
  let angle := ((lit 270 + (r - lit 0.5) * lit 30) * Math_PI) / lit 180 in
  let* r := Math_random in
  let speed := lit 50 + r * lit 50 in
  let vx := Math_cos angle * speed in
  let vy := Math_sin angle * speed in
  let* r := Math_random in
  let maxLife := lit 2.0 + r * lit 2.0 in
  rret (mkParticle id x y vx vy maxLife maxLife true false).

(** [new Sprite(texture)] with the defaults of the scene graph. *)
Definition new_sprite (h : nat) (tex : string) : Sprite num :=
  mkSprite h tex (lit 0) (lit 0) (lit 0) (lit 0) (lit 1) 0%Z (lit 1) (lit 1) true.

(** The random part of [spawnOne], in evaluation order. *)
Definition spawn_draws (width height : num) (id : nat)
    : Rand num (Particle num * string * num) :=
  let* r := Math_random in
  let angle := r * Math_PI * lit 2 in
  let* r := Math_random in
  let radius := r * lit 30 in
  let x := width / lit 2 + Math_cos angle * radius in
  let* r := Math_random in
  let baseBias := r * lit 0.5 in
  let verticalOffset := baseBias * baseBias * lit 15 in
  let y := height - lit 10 - verticalOffset + Math_sin angle * radius * lit 0.3 in
  let* p := new_particle id x y in
  let* tex := pickSingle in
  let* r := Math_random in
  let rotation := r * Math_PI * lit 2 in
  rret (p, tex, rotation).

(** [spawnOne] *)
Definition spawnOne st : System num :=
  let d := draw (spawn_draws (emitterWidth st) (emitterHeight st) (nextId st)) st in
  let p := d.1.1.1 in
  let tex := d.1.1.2 in
  let rotation := d.1.2 in
  let st := d.2 in
  let st := with_nextId (S (nextId st)) (with_heap (<[pid p := p]> (heap st)) st) in
  let st := with_particles (particles st ++ [pid p]) st in
  let sprite :=
    set_rotation rotation
      (set_position (px p) (py p)
         (set_anchorXY (lit 0.5) (new_sprite (nextHandle st) tex))) in
  let st := with_nextHandle (S (nextHandle st)) st in
  let st := with_singleSprites (<[pid p := sprite]> (singleSprites st)) st in
  with_children (addChild (handle sprite) (children st)) st.

(** [getVisualSpriteCount] *)
Definition getVisualSpriteCount st : Z :=
  (Z.of_nat (length (filter (fun p => active p = true) (deref st (particles st))))
   + Z.of_nat (size (groups st)))%Z.

(** [maybeSpawn] *)
Definition maybeSpawn st : System num :=
  if spawnTimer st <? spawnInterval st then st
  else
    let visual := getVisualSpriteCount st in
    let st :=
      if (visual <? maxSprites st)%Z then
        spawnOne
          (with_spawnInterval
             (if (visual >? maxSprites st - 3)%Z then lit 0.25 else lit 0.15) st)
      else st in
    with_spawnTimer (lit 0) st.

(** [for (const p of this.particles) p.update(dt)] *)
Definition update_one (dt : num) st (r : nat) : System num :=
  let d := draw (particle_update dt (heap st r)) st in
  with_heap (<[r := d.1]> (heap d.2)) d.2.

Definition updateParticles (dt : num) st : System num :=
  fold_left (update_one dt) (particles st) st.

(** [cullDeadParticles]: the body of the loop at index [i], and the loop
    from [i - 1] down to [0]. *)
Definition cull_at (i : nat) st : System num :=
  match particles st !! i with
  | None => st
  | Some r =>
    if active (heap st r) then st
    else
      let st :=
        match singleSprites st !! r with
        | Some s =>
          if has_parent s st
          then with_children (removeChild (handle s) (children st)) st
          else st
        | None => st
        end in
      let st := with_singleSprites (delete r (singleSprites st)) st in
      with_particles (delete i (particles st)) st
  end.

Fixpoint cull_from (i : nat) st : System num :=
  match i with
  | O => st
  | S j => cull_from j (cull_at j st)
  end.

Definition cullDeadParticles st : System num :=
  cull_from (length (particles st)) st.

(** [pickAnchor]: [first] is [comp[0]]; the best score starts at
    [-Infinity], kept as [None]. *)
Definition anchor_step (height : num) (acc : Particle num * option num) p
    : Particle num * option num :=
  let yNorm := nmax (lit 0) (nmin (lit 1) (py p / height)) in
  let score := yNorm * lit 0.65 + getAlpha p * lit 0.35 in
  let better :=
    match acc.2 with
    | None => above_neg_infinity score
    | Some bestScore => score >? bestScore
    end in
  if better then (p, Some score) else acc.

Definition pickAnchor (height : num) (first : Particle num)
    (comp : list (Particle num)) : Particle num :=
  (fold_left (anchor_step height) comp (first, None)).1.

(** [keyFor]: the joined string is kept as the sorted list of ids. *)
Definition keyFor st (comp : list nat) : list nat :=
  merge_sort le (map pid (deref st comp)).

(** The body of [for (const p of comp)] in [reconcileVisuals]. *)
Definition mark_merged st (r : nat) : System num :=
  let st := with_heap (alter (set_merged true) r (heap st)) st in
  with_singleSprites (alter (set_visible false) r (singleSprites st)) st.

(** The body of [for (const comp of clusters)]; [this.groups] is still the
    map of the previous frame. *)
Definition reconcile_cluster
    (acc : System num * gmap (list nat) (ParticleGroup num)) (comp : list nat)
    : System num * gmap (list nat) (ParticleGroup num) :=
  let st := acc.1 in
  match comp with
  | [] | [_] => acc
  | r0 :: _ =>
    let key := keyFor st comp in
    let anchor := pickAnchor (emitterHeight st) (heap st r0) (deref st comp) in
    let made :=
      match groups st !! key with
      | None =>
        let d := draw (pickMergeTexture (deref st comp)) st in
        let st := d.2 in
        let sprite :=
          set_position (px anchor) (py anchor)
            (set_anchorXY (lit 0.5) (new_sprite (nextHandle st) d.1)) in
        let st := with_nextHandle (S (nextHandle st)) st in
        (mkGroup key comp sprite (pid anchor),
         with_children (addChild (handle sprite) (children st)) st)
      | Some grp => (set_members comp (pid anchor) grp, st)
      end in
    (fold_left mark_merged comp made.2, <[key := made.1]> acc.2)
  end.

(** [for (const [key, g] of this.groups)]: drop the sprites of the groups
    that are not in [next]. *)
Definition drop_stale (next : gmap (list nat) (ParticleGroup num))
    (key : list nat) g (ch : list nat) : list nat :=
  if negb (bool_decide (is_Some (next !! key)))
     && bool_decide (handle (gsprite g) ∈ ch)
  then removeChild (handle (gsprite g)) ch
  else ch.

(** The last loop of [reconcileVisuals]. *)
Definition show_single st (r : nat) : System num :=
  let p := heap st r in
  if negb (active p) then st
  else with_singleSprites
         (alter (set_visible (negb (merged p))) r (singleSprites st)) st.

(** [reconcileVisuals] *)
Definition reconcileVisuals st (clusters : list (list nat)) : System num :=
  let st :=
    with_heap (fold_left (fun h r => alter (set_merged false) r h)
                         (particles st) (heap st)) st in
  let r := fold_left reconcile_cluster clusters (st, ∅) in
  let st := r.1 in
  let next := r.2 in
  let st := with_children (map_fold (drop_stale next) (children st) (groups st)) st in
  let st := with_groups next st in
  fold_left show_single (particles st) st.

(** [updateSingleSprites] *)
Definition single_frame st (r : nat) (s : Sprite num) : Sprite num :=
  let p := heap st r in
  if negb (active p) || merged p then s
  else
    let d := lit 1 - life p / maxLife p in
    let progress := d * d in
    let baseScale := nmax (lit 0.1) (lit 4 - progress * lit 3.8) in
    let heightProgress := py p / emitterHeight st in
    let horizontalScale := lit 0.3 + heightProgress * lit 0.7 in
    set_frame (px p) (py p) (getAlpha p) 1%Z
              (baseScale * horizontalScale) baseScale s.

Definition updateSingleSprites st : System num :=
  with_singleSprites
    (map_imap (fun r s => Some (single_frame st r s)) (singleSprites st)) st.

(** [updateGroupSprites].  The guards of its two special branches: *)
Definition anchor_is_dead st g : bool := negb (active (heap st (ganchor g))).

Definition alpha_step (acc : num * Z) p : num * Z :=
  if negb (active p) then acc else (acc.1 + getAlpha p, (acc.2 + 1)%Z).

Definition survivors st g : num * Z :=
  fold_left alpha_step (deref st (gparticles g)) (lit 0, 0%Z).

Definition no_survivors st g : bool := ((survivors st g).2 =? 0)%Z.

(** What one iteration does to the group object.  With an empty member
    list [pickAnchor] yields [undefined], which is not read before the
    [continue]; the anchor is then left as it was. *)
Definition group_frame st g : ParticleGroup num :=
  let g :=
    if anchor_is_dead st g then
      match gparticles g with
      | r0 :: _ =>
        set_ganchor
          (pid (pickAnchor (emitterHeight st) (heap st r0) (deref st (gparticles g)))) g
      | [] => g
      end
    else g in
  if no_survivors st g then g
  else
    let anchor := heap st (ganchor g) in
    let sa := (survivors st g).1 in
    let n := (survivors st g).2 in
    let progress :=
      nmax (lit 0) ((emitterHeight st - py anchor) / emitterHeight st) in
    let baseScale := nmax (lit 0.2) (lit 4.2 - progress * lit 4) in
    let heightProgress := py anchor / emitterHeight st in
    let horizontalScale := lit 0.3 + heightProgress * lit 0.7 in
    set_gsprite
      (set_frame (px anchor) (py anchor) (sa / nofZ n) 1%Z
                 (baseScale * horizontalScale) baseScale (gsprite g)) g.

(** What one iteration does to the child list. *)
Definition drop_empty st (key : list nat) g (ch : list nat) : list nat :=
  if no_survivors st g && bool_decide (handle (gsprite g) ∈ ch)
  then removeChild (handle (gsprite g)) ch
  else ch.

(** An iteration writes to its own group object and to the child list
    only, so the loop is the two passes below. *)
Definition updateGroupSprites st : System num :=
  let ch := map_fold (drop_empty st) (children st) (groups st) in
  with_children ch (with_groups (group_frame st <$> groups st) st).

(** [update], split before its last call. *)
Definition update_before_groups st (dt : num) : System num :=
  let st := with_spawnTimer (spawnTimer st + dt) st in
  let st := updateParticles dt st in
  let st := cullDeadParticles st in
  let clusters :=
    clusterToFitBudget (emitterHeight st) (baseMergeDistance st) (maxSprites st)
                       (deref st (particles st)) in
  let st := reconcileVisuals st (map (map pid) clusters) in
  let st := maybeSpawn st in
  updateSingleSprites st.

Definition update st (dt : num) : System num :=
  updateGroupSprites (update_before_groups st dt).

(** The states a system goes through: a new system, then any calls of
    [update]. *)
Inductive reachable (opts : FireMetaBallOptions num) : System num -> Prop :=
| reachable_new id0 : reachable opts (FireMetaBallSystem_new opts id0)
| reachable_update st dt :
    reachable opts st -> reachable opts (update st dt).

(** The visible draw primitives: the single sprites that are visible and
    the group sprites. *)
Definition visibleSingles st : nat :=
  size (filter (fun rs => visible rs.2 = true) (singleSprites st)).

Definition visiblePrimitives st : Z :=
  (Z.of_nat (visibleSingles st) + Z.of_nat (size (groups st)))%Z.
End SystemOps.

(** ** Invariants of the clustering loops *)

Abbreviation ids l := (map pid l).

Section ClusteringInvariants.
Context {num : Type} `{Num num}.
Variable emitterHeight : num.
Variable threshold : num.

(** What holds of the state of one flood fill, started from [seed] with
    [vis0] already visited, over the input [ps]. *)
Record flood_inv (ps : list (Particle num)) (vis0 : gset nat)
    (seed : Particle num) (st : Flood num) : Prop := {
  fi_input : forall p, p ∈ comp st -> p ∈ ps;
  fi_visited : visited st = list_to_set (ids (comp st)) ∪ vis0;
  fi_nodup : NoDup (ids (comp st));
  fi_fresh : forall p, p ∈ comp st -> pid p ∉ vis0;
  fi_stack : forall p, p ∈ stack st -> p ∈ comp st;
  fi_sums : (sumX st, sumY st, count st) = sums (comp st);
  fi_centroid : (cx st, cy st) = centroid (comp st);
  fi_admitted : forall k nb, comp st !! S k = Some nb ->
    exists cur, admitted_at emitterHeight threshold ps (comp st) (S k) cur nb;
  fi_seed : head (comp st) = Some seed
}.


(** The ids still to visit plus the stack height: the number of
    iterations the [while] loop has left at most. *)
Definition pending (ps : list (Particle num)) (st : Flood num) : nat :=
  size (list_to_set (C:=gset nat) (ids ps) ∖ visited st) + length (stack st).


(** What holds of a finished cluster, and of the outer loop. *)
Definition cluster_ok (ps c : list (Particle num)) : Prop :=
  c <> [] /\
  forall k nb, c !! S k = Some nb ->
    exists cur, admitted_at emitterHeight threshold ps c (S k) cur nb.

Record outer_inv (ps : list (Particle num))
    (acc : gset nat * list (list (Particle num))) : Prop := {
  oi_visited : acc.1 = list_to_set (ids (concat acc.2));
  oi_nodup : NoDup (ids (concat acc.2));
  oi_input : forall p, p ∈ concat acc.2 -> p ∈ ps;
  oi_clusters : Forall (cluster_ok ps) acc.2
}.

End ClusteringInvariants.

(** ** Membership sets of a clustering *)

(** The partition a clustering stands for: the set of the id sets of its
    clusters. *)
Definition partition_of {num : Type} (cl : list (list (Particle num)))
    : gset (gset nat) :=
  list_to_set (map (fun c => list_to_set (C:=gset nat) (ids c)) cl).

(** ** Concrete particles, over the rationals *)

Section Examples.
Local Open Scope Q_scope.

Definition still (i : nat) (x y : Q) : Particle Q :=
  mkParticle i x y 0 0 3 3 true false.

(** Three particles on a line, ten apart, at the top of the emitter. *)
Definition line_a : Particle Q := still 1%nat 0 0.
Definition line_b : Particle Q := still 2%nat 10 0.
Definition line_c : Particle Q := still 3%nat 20 0.

(** A particle with one neighbour on one side and two on the other, all
    in one grid cell. *)
Definition hub : Particle Q := still 1%nat 20 (-8).
Definition west : Particle Q := still 2%nat 7 (-8).
Definition south_east : Particle Q := still 3%nat 27 (-1).
Definition north_east : Particle Q := still 4%nat 27 (-15).
Definition quad : list (Particle Q) := [hub; west; south_east; north_east].

(** The number of clusters of [quad] at [baseMergeDistance = 100] and
    multiplier [m], in an emitter 1000 high. *)
Definition quad_count (m : Q) : nat :=
  length (clusterParticles (num:=Q) 1000 (nmul 100 (lit m)) quad).

(** Two particles at the base of a 100 high emitter, ten apart. *)
Definition base_l : Particle Q := still 1%nat 0 100.
Definition base_r : Particle Q := still 2%nat 10 100.

(** A particle in its last quarter second, out of a two second life. *)
Definition fading : Particle Q := mkParticle 1%nat 0 0 0 0 (1 # 4) 2 true false.
End Examples.

(** * Properties of the clustering *)

Section ClusteringFacts.
Context {num : Type} `{Num num}.
Variable emitterHeight : num.
Variable threshold : num.
Implicit Types (p q cur nb seed : Particle num) (ps c : list (Particle num)).
Implicit Types (st : Flood num) (b : gmap (Z * Z) (list (Particle num))).

Local Abbreviation buckets_of ps := (make_buckets threshold ps).
Local Abbreviation cands ps := (candidates threshold (make_buckets threshold ps)).

(** Buckets hold input particles only. *)
Lemma bucket_add_elem b p k l q :
  bucket_add threshold b p !! k = Some l -> q ∈ l ->
  q = p \/ exists l', b !! k = Some l' /\ q ∈ l'.
Proof.
  unfold bucket_add. intros Hl Hq.
  destruct (b !! keyOf threshold (px p) (py p)) as [l0|] eqn:E.
  - destruct (decide (k = keyOf threshold (px p) (py p))) as [->|Hne].
    + rewrite lookup_insert_eq in Hl. injection Hl as <-.
      apply elem_of_app in Hq as [Hq|Hq]; [right; eauto|].
      left. by apply list_elem_of_singleton in Hq.
    + rewrite lookup_insert_ne in Hl by done. right; eauto.
  - destruct (decide (k = keyOf threshold (px p) (py p))) as [->|Hne].
    + rewrite lookup_insert_eq in Hl. injection Hl as <-.
      left. by apply list_elem_of_singleton in Hq.
    + rewrite lookup_insert_ne in Hl by done. right; eauto.
Qed.

Lemma fold_bucket_elem ps b k l q :
  fold_left (bucket_add threshold) ps b !! k = Some l -> q ∈ l ->
  q ∈ ps \/ exists l', b !! k = Some l' /\ q ∈ l'.
Proof.
  revert b l. induction ps as [|p ps IH]; simpl; intros b l Hl Hq.
  - right; eauto.
  - destruct (IH _ _ Hl Hq) as [Hin|(l' & Hl' & Hq')].
    + left. by right.
    + destruct (bucket_add_elem _ _ _ _ _ Hl' Hq') as [->|Hold].
      * left. by left.
      * by right.
Qed.

Lemma candidates_input ps x y q : q ∈ cands ps x y -> q ∈ ps.
Proof.
  unfold candidates. rewrite list_elem_of_In.
  intros (oy & _ & Hq)%in_flat_map.
  apply in_flat_map in Hq as (ox & _ & Hq).
  destruct (_ !! _) as [l|] eqn:E; [|by inversion Hq].
  apply list_elem_of_In in Hq.
  destruct (fold_bucket_elem _ _ _ _ _ E Hq) as [?|(l' & Hl' & _)]; [done|].
  by rewrite lookup_empty in Hl'.
Qed.

Local Abbreviation IDS ps := (list_to_set (C:=gset nat) (ids ps)).
Local Abbreviation flood_inv := (flood_inv emitterHeight threshold).
Local Abbreviation cluster_ok := (cluster_ok emitterHeight threshold).
Local Abbreviation outer_inv := (outer_inv emitterHeight threshold).

Lemma sums_snoc c nb : c <> [] -> sums (c ++ [nb]) = sum_step (sums c) nb.
Proof.
  destruct c as [|seed rest]; [done|]. intros _. simpl.
  by rewrite fold_left_app.
Qed.

Lemma centroid_snoc c nb :
  c <> [] ->
  centroid (c ++ [nb]) =
    (ndiv (sums (c ++ [nb])).1.1 (nofZ (sums (c ++ [nb])).2),
     ndiv (sums (c ++ [nb])).1.2 (nofZ (sums (c ++ [nb])).2)).
Proof.
  destruct c as [|seed [|q rest]]; [done| |]; intros _; reflexivity.
Qed.

Lemma admitted_at_snoc ps c k cur nb x :
  admitted_at emitterHeight threshold ps c k cur nb ->
  admitted_at emitterHeight threshold ps (c ++ [x]) k cur nb.
Proof.
  intros (Hk & Hcur & Hrest).
  assert (k < length c)%nat as Hlt by (by eapply lookup_lt_Some).
  split; [by rewrite lookup_app_l|].
  rewrite take_app_le by lia. done.
Qed.

Lemma visit_inv ps vis0 seed cur st nb :
  flood_inv ps vis0 seed st -> cur ∈ comp st ->
  nb ∈ cands ps (px cur) (py cur) ->
  flood_inv ps vis0 seed (visit emitterHeight threshold cur st nb) /\
  cur ∈ comp (visit emitterHeight threshold cur st nb).
Proof.
  intros Hinv Hcur Hnb. unfold visit.
  destruct (bool_decide (pid nb ∈ visited st)) eqn:Hvis; simpl; [done|].
  destruct (Nat.eqb (pid nb) (pid cur)) eqn:Hself; simpl; [done|].
  destruct (pairwise_ok emitterHeight threshold cur nb) eqn:Hpair; simpl; [|done].
  destruct (cohesion_ok emitterHeight threshold (cx st) (cy st) nb) eqn:Hcoh;
    simpl; [|done].
  apply bool_decide_eq_false in Hvis.
  destruct Hinv as [Hin Hv Hnd Hfr Hst Hsum Hcen Hadm Hne].
  assert (comp st <> []) as Hne' by (by destruct (comp st)).
  assert (pid nb ∉ ids (comp st) /\ pid nb ∉ vis0) as [Hnid Hnv].
  { rewrite Hv in Hvis. set_solver. }
  split; [|set_solver].
  constructor; simpl.
  - intros p [Hp|Hp%list_elem_of_singleton]%elem_of_app; [auto|subst].
    by eapply candidates_input.
  - rewrite Hv, map_app, list_to_set_app_L. simpl. set_solver.
  - rewrite map_app. apply NoDup_app. split; [done|]. split.
    + intros i Hi Hi'%list_elem_of_singleton. by subst.
    + apply NoDup_singleton.
  - intros p [Hp|Hp%list_elem_of_singleton]%elem_of_app; [auto|by subst].
  - intros p [->|Hp]%elem_of_cons; set_solver.
  - rewrite sums_snoc by done. by rewrite <- Hsum.
  - rewrite centroid_snoc by done. rewrite sums_snoc by done.
    by rewrite <- Hsum.
  - intros k q Hk.
    destruct (decide (S k < length (comp st))%nat) as [Hlt|Hge].
    + rewrite lookup_app_l in Hk by done.
      destruct (Hadm _ _ Hk) as [c' Hc']. exists c'.
      by apply admitted_at_snoc.
    + assert (S k = length (comp st)) as Hk'.
      { apply lookup_lt_Some in Hk. rewrite length_app in Hk. simpl in Hk. lia. }
      rewrite Hk' in *.
      rewrite lookup_app_r, Nat.sub_diag in Hk by lia. injection Hk as <-.
      exists cur. split; [|split; [|split; [|split]]].
      * by rewrite lookup_app_r, Nat.sub_diag by lia.
      * by rewrite take_app_length.
      * done.
      * done.
      * rewrite take_app_length. by rewrite <- Hcen.
  - by destruct (comp st).
Qed.

Lemma visit_fold_inv ps vis0 seed cur l st :
  flood_inv ps vis0 seed st -> cur ∈ comp st ->
  (forall nb, nb ∈ l -> nb ∈ cands ps (px cur) (py cur)) ->
  flood_inv ps vis0 seed (fold_left (visit emitterHeight threshold cur) l st).
Proof.
  revert st. induction l as [|nb l IH]; simpl; intros st Hinv Hcur Hl; [done|].
  destruct (visit_inv ps vis0 seed cur st nb) as [Hinv' Hcur']; [done|done|set_solver|].
  apply IH; [done|done|set_solver].
Qed.

Lemma pop_to_inv ps vis0 seed st cur rest :
  flood_inv ps vis0 seed st -> stack st = cur :: rest ->
  flood_inv ps vis0 seed (pop_to st rest) /\ cur ∈ comp (pop_to st rest).
Proof.
  intros [Hin Hv Hnd Hfr Hst Hsum Hcen Hadm Hne] Hstack.
  rewrite Hstack in Hst. split; [|set_solver].
  constructor; simpl; try done. set_solver.
Qed.

Lemma flood_inv_preserved ps vis0 seed fuel st :
  flood_inv ps vis0 seed st ->
  flood_inv ps vis0 seed (flood emitterHeight threshold (buckets_of ps) fuel st).
Proof.
  revert st. induction fuel as [|fuel IH]; simpl; intros st Hinv; [done|].
  destruct (stack st) as [|cur rest] eqn:Hstack; [done|].
  destruct (pop_to_inv _ _ _ _ _ _ Hinv Hstack) as [Hinv' Hcur].
  apply IH. by apply visit_fold_inv.
Qed.

(** *** The [while] loop terminates within the fuel given to it *)
Lemma size_difference_fresh (X V : gset nat) (i : nat) :
  i ∈ X -> i ∉ V -> S (size (X ∖ ({[i]} ∪ V))) = size (X ∖ V).
Proof.
  intros Hi Hn.
  assert (X ∖ V = {[i]} ∪ (X ∖ ({[i]} ∪ V))) as ->.
  { apply set_eq. intros j. destruct (decide (j = i)); set_solver. }
  rewrite (size_union {[i]} (X ∖ ({[i]} ∪ V))) by set_solver.
  by rewrite size_singleton.
Qed.

Lemma visit_pending ps cur st nb :
  nb ∈ ps ->
  pending ps (visit emitterHeight threshold cur st nb) = pending ps st.
Proof.
  intros Hnb. unfold visit.
  destruct (bool_decide (pid nb ∈ visited st)) eqn:Hvis; simpl; [done|].
  destruct (Nat.eqb (pid nb) (pid cur)); simpl; [done|].
  destruct (pairwise_ok _ _ _ _); simpl; [|done].
  destruct (cohesion_ok _ _ _ _ _); simpl; [|done].
  apply bool_decide_eq_false in Hvis.
  unfold pending. simpl.
  rewrite <- (size_difference_fresh (IDS ps) (visited st) (pid nb)); [lia| |done].
  apply elem_of_list_to_set, list_elem_of_fmap. eauto.
Qed.

Lemma visit_fold_pending ps cur l st :
  (forall nb, nb ∈ l -> nb ∈ ps) ->
  pending ps (fold_left (visit emitterHeight threshold cur) l st) = pending ps st.
Proof.
  revert st. induction l as [|nb l IH]; simpl; intros st Hl; [done|].
  rewrite IH by set_solver. apply visit_pending. set_solver.
Qed.

Lemma flood_exhausts_stack ps fuel st :
  pending ps st <= fuel ->
  stack (flood emitterHeight threshold (buckets_of ps) fuel st) = [].
Proof.
  revert st. induction fuel as [|fuel IH]; simpl; intros st Hfuel.
  - unfold pending in Hfuel. destruct (stack st); [done|simpl in Hfuel; lia].
  - destruct (stack st) as [|cur rest] eqn:Hstack; [done|].
    apply IH. rewrite visit_fold_pending.
    + unfold pending in *. rewrite Hstack in Hfuel. simpl in *. lia.
    + intros nb. apply candidates_input.
Qed.

(** More fuel than needed changes nothing. *)
Lemma flood_more_fuel b fuel extra st :
  stack (flood emitterHeight threshold b fuel st) = [] ->
  flood emitterHeight threshold b (fuel + extra) st =
  flood emitterHeight threshold b fuel st.
Proof.
  revert st. induction fuel as [|fuel IH]; simpl; intros st Hdone.
  - destruct extra; [done|]. simpl. by rewrite Hdone.
  - destruct (stack st) as [|cur rest]; [done|]. by apply IH.
Qed.

Lemma size_list_to_set_le (l : list nat) :
  size (list_to_set (C:=gset nat) l) <= length l.
Proof.
  induction l as [|i l IH]; simpl.
  - change (size (∅ : gset nat) <= 0). by rewrite size_empty.
  - rewrite (size_union_alt {[i]} (list_to_set l)), size_singleton.
    assert (size (list_to_set (C:=gset nat) l ∖ {[i]}) <= size (list_to_set (C:=gset nat) l));
      [apply subseteq_size; set_solver|lia].
Qed.

Lemma seed_state_pending ps vis seed :
  seed ∈ ps -> pid seed ∉ vis ->
  pending ps (seed_state vis seed) <= length ps.
Proof.
  intros Hin Hfresh. unfold pending. simpl.
  assert (pid seed ∈ IDS ps) as Hid.
  { apply elem_of_list_to_set, list_elem_of_fmap. eauto. }
  pose proof (size_difference_fresh (IDS ps) vis (pid seed) Hid Hfresh) as Hsz.
  assert (size (IDS ps ∖ vis) <= size (IDS ps)) as Hle1.
  { apply subseteq_size. set_solver. }
  assert (size (IDS ps) <= length ps) as Hle2.
  { rewrite <- (length_map (pid (num:=num)) ps). apply size_list_to_set_le. }
  lia.
Qed.

Lemma seed_state_inv ps vis seed :
  seed ∈ ps -> pid seed ∉ vis -> flood_inv ps vis seed (seed_state vis seed).
Proof.
  intros Hin Hfresh. constructor; simpl; try done.
  all: try (intros p ->%list_elem_of_singleton; done).
  all: try set_solver.
  all: try apply NoDup_singleton.
Qed.

(** *** The outer loop *)
Lemma grow_inv ps acc seed :
  outer_inv ps acc -> seed ∈ ps ->
  outer_inv ps (grow emitterHeight threshold (buckets_of ps) (length ps) acc seed) /\
  pid seed ∈ (grow emitterHeight threshold (buckets_of ps) (length ps) acc seed).1 /\
  acc.1 ⊆ (grow emitterHeight threshold (buckets_of ps) (length ps) acc seed).1.
Proof.
  intros [Hv Hnd Hin Hcl] Hseed. unfold grow.
  destruct (bool_decide (pid seed ∈ acc.1)) eqn:Hvis.
  { apply bool_decide_eq_true in Hvis. done. }
  apply bool_decide_eq_false in Hvis.
  pose proof (flood_inv_preserved ps acc.1 seed (length ps) _
                (seed_state_inv ps acc.1 seed Hseed Hvis)) as Hfl.
  set (st := flood _ _ _ _ _) in *.
  destruct Hfl as [Fin Fv Fnd Ffr Fst Fsum Fcen Fadm Fne].
  simpl. split; [|split].
  - constructor; simpl.
    + rewrite concat_app, map_app, list_to_set_app_L. simpl.
      rewrite app_nil_r, Fv, Hv. set_solver.
    + rewrite concat_app, map_app. simpl. rewrite app_nil_r.
      apply NoDup_app. split; [done|]. split; [|done].
      intros i Hi Hi'. apply list_elem_of_fmap in Hi' as (p & -> & Hp).
      apply (Ffr p Hp). rewrite Hv. by apply elem_of_list_to_set.
    + rewrite concat_app. simpl. rewrite app_nil_r.
      intros p [Hp|Hp]%elem_of_app; auto.
    + apply Forall_app. split; [done|]. apply Forall_singleton.
      split; [by destruct (comp st)|done].
  - rewrite Fv. 
    assert (seed ∈ comp st) as Hs.
    { destruct (comp st); [done|]. injection Fne as ->. by left. }
    apply elem_of_union_l, elem_of_list_to_set, list_elem_of_fmap. eauto.
  - rewrite Fv. set_solver.
Qed.

Lemma grow_fold_inv ps l acc :
  outer_inv ps acc -> (forall p, p ∈ l -> p ∈ ps) ->
  let acc' := fold_left (grow emitterHeight threshold (buckets_of ps) (length ps)) l acc in
  outer_inv ps acc' /\ acc.1 ⊆ acc'.1 /\ forall p, p ∈ l -> pid p ∈ acc'.1.
Proof.
  revert acc. induction l as [|seed l IH]; simpl; intros acc Hinv Hl.
  - split; [done|]. split; [done|]. intros p Hp. by apply elem_of_nil in Hp.
  - destruct (grow_inv ps acc seed Hinv) as (Hinv' & Hseed & Hmono); [set_solver|].
    destruct (IH _ Hinv') as (Hfin & Hsub & Hall); [set_solver|].
    split; [done|]. split; [set_solver|].
    intros p [->|Hp]%elem_of_cons; [set_solver|auto].
Qed.

Lemma outer_inv_init ps : outer_inv ps (∅, []).
Proof.
  constructor; simpl; try done.
  - apply NoDup_nil_2.
  - intros p Hp. by apply elem_of_nil in Hp.
Qed.

Lemma clusterParticles_inv ps :
  let cl := clusterParticles emitterHeight threshold ps in
  NoDup (ids (concat cl)) /\
  (forall p, p ∈ concat cl -> p ∈ ps) /\
  (forall p, p ∈ ps -> pid p ∈ ids (concat cl)) /\
  Forall (cluster_ok ps) cl.
Proof.
  unfold clusterParticles.
  destruct (grow_fold_inv ps ps (∅, []) (outer_inv_init ps)) as ([Hv Hnd Hin Hcl] & _ & Hall);
    [done|].
  simpl in *. split; [done|]. split; [done|]. split; [|done].
  intros p Hp. specialize (Hall p Hp). rewrite Hv in Hall.
  by apply elem_of_list_to_set in Hall.
Qed.

(** Every particle is in exactly one cluster: the clusters, laid end to
    end, are a rearrangement of the input. *)
Lemma clusterParticles_partition ps :
  NoDup (ids ps) ->
  concat (clusterParticles emitterHeight threshold ps) ≡ₚ ps.
Proof.
  intros Hnd. destruct (clusterParticles_inv ps) as (Hndc & Hin & Hall & _).
  apply NoDup_Permutation.
  - by eapply NoDup_fmap_1.
  - by eapply NoDup_fmap_1.
  - intros p. split; [auto|]. intros Hp.
    destruct (proj1 (list_elem_of_fmap _ _ _) (Hall p Hp)) as (q & Hq & Hqin).
    assert (q = p) as <-; [|done].
    pose proof (Hin q Hqin) as Hqps.
    apply list_elem_of_lookup in Hqps as [i Hi].
    apply list_elem_of_lookup in Hp as [j Hj].
    assert (i = j) as ->.
    { eapply NoDup_lookup; [exact Hnd| |].
      - rewrite list_lookup_fmap, Hi. reflexivity.
      - rewrite list_lookup_fmap, Hj. simpl. by rewrite Hq. }
    congruence.
Qed.

Lemma clusterParticles_nonempty ps c :
  c ∈ clusterParticles emitterHeight threshold ps -> c <> [].
Proof.
  intros Hc. destruct (clusterParticles_inv ps) as (_ & _ & _ & Hok).
  rewrite Forall_forall in Hok. by destruct (Hok c Hc).
Qed.

Lemma cluster_ok_linked_to_seed ps c k nb :
  cluster_ok ps c -> c !! k = Some nb ->
  exists seed, head c = Some seed /\ linked emitterHeight threshold ps c seed nb.
Proof.
  intros [Hne Hadm]. revert nb.
  induction (lt_wf k) as [k _ IH]. intros nb Hk.
  destruct c as [|seed rest]; [done|]. exists seed. split; [done|].
  destruct k as [|k].
  - simpl in Hk. injection Hk as <-. apply rst_refl.
  - destruct (Hadm _ _ Hk) as (cur & Hat).
    pose proof Hat as (_ & Hcur & _).
    apply list_elem_of_lookup in Hcur as [j Hj].
    assert (j < S k)%nat as Hlt.
    { apply lookup_lt_Some in Hj. rewrite length_take in Hj. lia. }
    rewrite lookup_take_lt in Hj by done.
    destruct (IH j Hlt cur Hj) as (seed' & Hhd & Hlink).
    injection Hhd as <-.
    eapply rst_trans; [exact Hlink|]. apply rst_step. by exists (S k).
Qed.

Lemma cluster_ok_linked ps c p q :
  cluster_ok ps c -> p ∈ c -> q ∈ c -> linked emitterHeight threshold ps c p q.
Proof.
  intros Hok [i Hi]%list_elem_of_lookup [j Hj]%list_elem_of_lookup.
  destruct (cluster_ok_linked_to_seed ps c i p Hok Hi) as (s1 & Hs1 & L1).
  destruct (cluster_ok_linked_to_seed ps c j q Hok Hj) as (s2 & Hs2 & L2).
  assert (s1 = s2) as -> by congruence.
  eapply rst_trans; [apply rst_sym; exact L1|exact L2].
Qed.

Lemma clusterParticles_flood_completes ps vis seed :
  seed ∈ ps -> pid seed ∉ vis ->
  stack (flood emitterHeight threshold (buckets_of ps) (length ps)
           (seed_state vis seed)) = [].
Proof.
  intros Hin Hfresh. apply flood_exhausts_stack.
  by apply seed_state_pending.
Qed.
End ClusteringFacts.

(** * Claims about particles and clustering *)

Section ClusterClaims.
Context {num : Type} `{Num num}.
Implicit Types (p q : Particle num) (ps c : list (Particle num)).

Lemma NoDup_concat_index {A : Type} (ll : list (list A)) (i j : nat) (l1 l2 : list A) (a : A) :
  NoDup (concat ll) -> ll !! i = Some l1 -> ll !! j = Some l2 ->
  a ∈ l1 -> a ∈ l2 -> i = j.
Proof.
  revert i j. induction ll as [|l ll IH]; intros i j Hnd Hi Hj H1 H2; [done|].
  simpl in Hnd. apply NoDup_app in Hnd as (_ & Hdisj & Hnd).
  assert (forall k l', ll !! k = Some l' -> a ∈ l' -> a ∈ concat ll) as Hin.
  { intros k l' Hk Ha. apply list_elem_of_In, in_concat. exists l'.
    split; apply list_elem_of_In; [by eapply list_elem_of_lookup_2|done]. }
  destruct i as [|i], j as [|j]; simpl in *.
  - done.
  - injection Hi as <-. exfalso. eapply Hdisj; eauto.
  - injection Hj as <-. exfalso. eapply Hdisj; eauto.
  - f_equal. eauto.
Qed.

Lemma try_multipliers_cases (emitterHeight base : num) (maxSprites : Z) ps ms chosen :
  let fits m :=
    (Z.of_nat (length (clusterParticles emitterHeight (nmul base (lit m)) ps))
     <= maxSprites)%Z in
  let r := try_multipliers emitterHeight base maxSprites ps ms chosen in
  (exists pre m post, ms = pre ++ m :: post /\ (forall m', m' ∈ pre -> ~ fits m') /\
     fits m /\ r = clusterParticles emitterHeight (nmul base (lit m)) ps)
  \/ ((forall m, m ∈ ms -> ~ fits m) /\
      r = match last ms with
          | Some m => clusterParticles emitterHeight (nmul base (lit m)) ps
          | None => chosen
          end).
Proof.
  intros fits. revert chosen. induction ms as [|m ms IH]; intros chosen; simpl.
  - right. split; [|done]. intros m Hm. by apply elem_of_nil in Hm.
  - destruct (Z.leb_spec (Z.of_nat (length (clusterParticles emitterHeight
                (nmul base (lit m)) ps))) maxSprites) as [Hfit|Hnofit].
    + left. exists [], m, ms. split; [done|]. split; [|done].
      intros m' Hm'. by apply elem_of_nil in Hm'.
    + destruct (IH (clusterParticles emitterHeight (nmul base (lit m)) ps))
        as [(pre & m1 & post & -> & Hpre & Hfit & Hr)|[Hnone Hr]].
      * left. exists (m :: pre), m1, post. split; [done|]. split; [|done].
        intros m' [->|Hm']%elem_of_cons; [|auto]. unfold fits. lia.
      * right. split.
        -- intros m' [->|Hm']%elem_of_cons; [|auto]. unfold fits. lia.
        -- rewrite Hr. destruct ms as [|m2 ms]; [done|].
           change (last (m :: m2 :: ms)) with (last (m2 :: ms)).
           destruct (last (m2 :: ms)) eqn:Hlast; [done|].
           by apply last_None in Hlast.
Qed.

(** C2.  With at least one active particle, [clusterToFitBudget] goes
    through the multipliers 1, 1.12, 1.4, 1.8, 2, 2.2 (an increasing list)
    and returns the clustering at [baseMergeDistance * m] for the first [m]
    whose cluster count is within the budget; when no multiplier fits, it
    returns the clustering at the last multiplier, 2.2. *)
Theorem C2_first_fitting_multiplier (emitterHeight base : num) (maxSprites : Z) ps :
  filter (fun p => active p = true) ps <> [] ->
  let actives := filter (fun p => active p = true) ps in
  let at_ m := clusterParticles emitterHeight (nmul base (lit m)) actives in
  let fits m := (Z.of_nat (length (at_ m)) <= maxSprites)%Z in
  let r := clusterToFitBudget emitterHeight base maxSprites ps in
  multipliers = [1; 1.12; 1.4; 1.8; 2; 2.2]%Q /\
  StronglySorted Qlt multipliers /\
  ((exists pre m post, multipliers = pre ++ m :: post /\
      (forall m', m' ∈ pre -> ~ fits m') /\ fits m /\ r = at_ m)
   \/ ((forall m, m ∈ multipliers -> ~ fits m) /\ r = at_ 2.2%Q)).
Proof.
  intros Hne actives at_ fits r.
  split; [done|]. split.
  { unfold multipliers. repeat constructor. }
  unfold r, clusterToFitBudget. fold actives.
  destruct (Nat.eqb (length actives) 0) eqn:Hlen.
  { apply Nat.eqb_eq, length_zero_iff_nil in Hlen. by destruct Hne. }
  apply (try_multipliers_cases emitterHeight base maxSprites actives multipliers []).
Qed.

(** C3.  For a list of particles with distinct ids, [clusterParticles]
    returns a partition of the input: the clusters laid end to end are a
    rearrangement of the input, every input particle is in a cluster and in
    no two of them, and any two members of a cluster are linked through
    admitted neighbours (pairwise test and cohesion test passed at
    admission).  No particle gives no cluster; one particle gives one
    singleton cluster. *)
Theorem C3_clusters_partition_input (emitterHeight threshold : num) ps :
  NoDup (ids ps) ->
  let cl := clusterParticles emitterHeight threshold ps in
  concat cl ≡ₚ ps /\
  (forall p, p ∈ ps -> exists i c, cl !! i = Some c /\ p ∈ c) /\
  (forall i j c1 c2 p, cl !! i = Some c1 -> cl !! j = Some c2 ->
     p ∈ c1 -> p ∈ c2 -> i = j) /\
  (forall c p q, c ∈ cl -> p ∈ c -> q ∈ c ->
     linked emitterHeight threshold ps c p q) /\
  clusterParticles emitterHeight threshold [] = [] /\
  (forall p, clusterParticles emitterHeight threshold [p] = [[p]]).
Proof.
  intros Hnd cl.
  pose proof (clusterParticles_partition emitterHeight threshold ps Hnd) as Hperm.
  destruct (clusterParticles_inv emitterHeight threshold ps) as (Hndc & Hin & Hall & Hok).
  fold cl in Hperm, Hndc, Hin, Hall, Hok.
  split; [done|]. split; [|split; [|split; [|split]]].
  - intros p Hp. rewrite <- Hperm in Hp.
    apply list_elem_of_In, in_concat in Hp as (c & Hc & Hpc).
    apply list_elem_of_In, list_elem_of_lookup in Hc as [i Hi].
    exists i, c. split; [done|]. by apply list_elem_of_In.
  - intros i j c1 c2 p Hi Hj H1 H2.
    eapply NoDup_concat_index; [|exact Hi|exact Hj|exact H1|exact H2].
    by eapply NoDup_fmap_1.
  - intros c p q Hc Hp Hq. rewrite Forall_forall in Hok.
    by apply cluster_ok_linked; [apply Hok| |].
  - reflexivity.
  - intros p.
    pose proof (clusterParticles_partition emitterHeight threshold [p]) as Hp1.
    assert (forall c, c ∈ clusterParticles emitterHeight threshold [p] -> c <> [])
      as Hne by (intros c; apply clusterParticles_nonempty).
    destruct (clusterParticles emitterHeight threshold [p]) as [|c1 rest].
    + simpl in Hp1. symmetry in Hp1.
      apply Permutation_nil_r in Hp1; [done|]. simpl. apply NoDup_singleton.
    + simpl in Hp1. apply Permutation_singleton_r in Hp1; [|simpl; apply NoDup_singleton].
      destruct c1 as [|q c1]; [exfalso; apply (Hne []); [left|done]|].
      simpl in Hp1. injection Hp1 as -> Hrest.
      apply app_eq_nil in Hrest as [-> Hrest].
      destruct rest as [|c2 rest]; [done|].
      simpl in Hrest. apply app_eq_nil in Hrest as [-> _].
      exfalso. apply (Hne []); [|done]. right. by left.
Qed.

(** C6, amended.  Listing the same particles in another order may change
    the components, but not the set of particles that is partitioned: the
    clusters of the two runs, laid end to end, are rearrangements of each
    other. *)
Theorem C6_order_keeps_particles (emitterHeight threshold : num) ps ps' :
  NoDup (ids ps) -> ps' ≡ₚ ps ->
  concat (clusterParticles emitterHeight threshold ps')
  ≡ₚ concat (clusterParticles emitterHeight threshold ps).
Proof.
  intros Hnd Hperm.
  rewrite (clusterParticles_partition emitterHeight threshold ps Hnd).
  rewrite (clusterParticles_partition emitterHeight threshold ps'); [done|].
  by rewrite Hperm.
Qed.

Lemma length_concat_nonempty {A : Type} (ll : list (list A)) :
  Forall (fun l => l <> []) ll -> length ll <= length (concat ll).
Proof.
  induction 1 as [|l ll Hl _ IH]; simpl; [done|].
  rewrite length_app. destruct l; [done|]. simpl. lia.
Qed.

Lemma clusterParticles_count_le (emitterHeight threshold : num) ps :
  length (clusterParticles emitterHeight threshold ps) <= length ps.
Proof.
  destruct (clusterParticles_inv emitterHeight threshold ps) as (Hnd & Hin & _ & Hok).
  etrans; [apply length_concat_nonempty|].
  { eapply Forall_impl; [exact Hok|]. by intros c [Hne _]. }
  rewrite <- (length_map pid (concat _)), <- (length_map pid ps).
  apply submseteq_length, NoDup_submseteq; [done|].
  intros i (p & -> & Hp)%list_elem_of_fmap.
  apply list_elem_of_fmap. eauto.
Qed.

(** C7, amended.  At every threshold (so at every multiplier) a non-empty
    particle list gives at least one cluster and at most as many clusters
    as particles; nothing orders the counts at two multipliers. *)
Theorem C7_cluster_count_bounds (emitterHeight threshold : num) ps :
  ps <> [] ->
  1 <= length (clusterParticles emitterHeight threshold ps) <= length ps.
Proof.
  intros Hne. split; [|apply clusterParticles_count_le].
  destruct (clusterParticles_inv emitterHeight threshold ps) as (_ & _ & Hall & _).
  destruct ps as [|p ps]; [done|].
  specialize (Hall p (list_elem_of_here _ _)).
  destruct (clusterParticles emitterHeight threshold (p :: ps)); simpl in *; [|lia].
  by apply elem_of_nil in Hall.
Qed.
End ClusterClaims.

(** * Claims checked on exact rationals *)

Section RationalClaims.
Local Open Scope Q_scope.

(** C5.  [getAlpha] does not look at [maxLife]: it is [min(1, 2 * life)].
    For the particle [fading] (life 0.25 of 2 seconds) it returns 0.5,
    where [min(1, 2 * life / maxLife)], the formula of the sibling
    [SimulationParticle.getAlpha], gives 0.25. *)
Theorem C5_getAlpha_ignores_maxLife :
  (forall (p : Particle Q) (m : Q),
     getAlpha (mkParticle (pid p) (px p) (py p) (pvx p) (pvy p) (life p) m
                          (active p) (merged p)) = getAlpha p) /\
  active fading = true /\
  getAlpha fading == 1 # 2 /\
  Qmin 1 (2 * life fading / maxLife fading) == 1 # 4 /\
  getAlpha_by_ratio fading == 1 # 4 /\
  ~ getAlpha fading == Qmin 1 (2 * life fading / maxLife fading).
Proof.
  split; [by intros [] m|].
  split; [done|]. split; [by vm_compute|]. split; [by vm_compute|].
  split; [by vm_compute|]. by vm_compute.
Qed.

(** The two orders of the same three particles are clustered differently. *)
Lemma line_forwards :
  clusterParticles (num:=Q) 100 100 [line_a; line_b; line_c]
  = [[line_a; line_b]; [line_c]].
Proof. by vm_compute. Qed.

Lemma line_backwards :
  clusterParticles (num:=Q) 100 100 [line_c; line_b; line_a]
  = [[line_c; line_b]; [line_a]].
Proof. by vm_compute. Qed.

(** C6, as stated, fails: the partition depends on the order in which the
    particles are listed. *)
Lemma C6_order_changes_partition :
  [line_c; line_b; line_a] ≡ₚ [line_a; line_b; line_c] /\
  partition_of (clusterParticles (num:=Q) 100 100 [line_a; line_b; line_c])
  <> partition_of (clusterParticles (num:=Q) 100 100 [line_c; line_b; line_a]).
Proof.
  split.
  - change [line_c; line_b; line_a] with (reverse [line_a; line_b; line_c]).
    apply reverse_Permutation.
  - rewrite line_forwards, line_backwards.
    apply (bool_decide_unpack _). by vm_compute.
Qed.

(** The cluster counts of [quad] at the first two multipliers. *)
Lemma quad_at_1 :
  map (map pid) (clusterParticles (num:=Q) 1000 (100 * 1) quad) = [[1; 3; 4]; [2]]%nat.
Proof. by vm_compute. Qed.

Lemma quad_at_1_12 :
  map (map pid) (clusterParticles (num:=Q) 1000 (100 * 1.12) quad) = [[1; 2]; [3]; [4]]%nat.
Proof. by vm_compute. Qed.

(** C7, as stated, fails: from multiplier 1 to multiplier 1.12 the number
    of clusters of [quad] goes from 2 to 3. *)
Lemma C7_count_can_grow :
  1 ∈ multipliers /\ 1.12 ∈ multipliers /\ 1 < 1.12 /\
  quad_count 1 = 2%nat /\ quad_count 1.12 = 3%nat /\
  ~ (quad_count 1.12 <= quad_count 1)%nat.
Proof.
  assert (quad_count 1 = 2%nat) as H1 by (by vm_compute).
  assert (quad_count 1.12 = 3%nat) as H2 by (by vm_compute).
  split; [by left|]. split; [by right; left|]. split; [done|].
  split; [done|]. split; [done|]. rewrite H1, H2. lia.
Qed.

(** C8.  [base_l] and [base_r] pass the pairwise test at threshold 5 (and
    [base_r] passes the cohesion test against [base_l]), but their cells
    are two apart: [base_r] is not among the candidates of [base_l], and
    the two particles end in different clusters. *)
Theorem C8_pair_in_range_two_cells_apart :
  pairwise_ok (num:=Q) 100 5 base_l base_r = true /\
  cohesion_ok (num:=Q) 100 5 (px base_l) (py base_l) base_r = true /\
  keyOf (num:=Q) 5 (px base_l) (py base_l) = (0, 20)%Z /\
  keyOf (num:=Q) 5 (px base_r) (py base_r) = (2, 20)%Z /\
  candidates (num:=Q) 5 (make_buckets 5 [base_l; base_r]) (px base_l) (py base_l)
    = [base_l] /\
  clusterParticles (num:=Q) 100 5 [base_l; base_r] = [[base_l]; [base_r]].
Proof. repeat split; by vm_compute. Qed.

(** Instances of the general statements on the particles above. *)
Lemma line_ids_distinct : NoDup (ids [line_a; line_b; line_c]).
Proof. apply (bool_decide_unpack _). vm_compute. exact I. Defined.

Lemma C2_witness :
  filter (fun p => active p = true) [line_a; line_b; line_c] <> [] /\
  StronglySorted Qlt multipliers.
Proof.
  assert (filter (fun p : Particle Q => active p = true) [line_a; line_b; line_c] <> [])
    as Hne by discriminate.
  split; [exact Hne|].
  exact (proj1 (proj2 (C2_first_fitting_multiplier (num:=Q) 100 5 10%Z
                         [line_a; line_b; line_c] Hne))).
Defined.

Lemma C3_witness :
  NoDup (ids [line_a; line_b; line_c]) /\
  concat (clusterParticles (num:=Q) 100 100 [line_a; line_b; line_c])
  ≡ₚ [line_a; line_b; line_c].
Proof.
  split; [exact line_ids_distinct|].
  exact (proj1 (C3_clusters_partition_input (num:=Q) 100 100
                  [line_a; line_b; line_c] line_ids_distinct)).
Defined.

Lemma C6_witness :
  NoDup (ids [line_a; line_b; line_c]) /\
  [line_c; line_b; line_a] ≡ₚ [line_a; line_b; line_c] /\
  concat (clusterParticles (num:=Q) 100 100 [line_c; line_b; line_a])
  ≡ₚ concat (clusterParticles (num:=Q) 100 100 [line_a; line_b; line_c]).
Proof.
  assert ([line_c; line_b; line_a] ≡ₚ [line_a; line_b; line_c]) as Hperm.
  { change [line_c; line_b; line_a] with (reverse [line_a; line_b; line_c]).
    apply reverse_Permutation. }
  split; [exact line_ids_distinct|]. split; [exact Hperm|].
  exact (C6_order_keeps_particles (num:=Q) 100 100 _ _ line_ids_distinct Hperm).
Defined.

Lemma C7_witness :
  quad <> [] /\ (1 <= quad_count 1.12 <= length quad)%nat.
Proof.
  assert (quad <> []) as Hne by discriminate.
  split; [exact Hne|].
  exact (C7_cluster_count_bounds (num:=Q) 1000 (nmul 100 (lit 1.12)) quad Hne).
Defined.
End RationalClaims.
